(** * createProject.py: the project scaffold builder

    The script walks a literal table (directory -> list of file names) once.
    For every entry it creates the directory when [os.path.exists] says the
    path is absent, then creates every listed file that is absent as an
    empty file, printing one line per creation and one closing line.

    The embedding has three layers:
    - the operating-system calls the script makes ([os.path.join],
      [os.path.exists], [os.makedirs], [open(_, 'w')], [print]) over a
      filesystem kept as a finite map from resolved paths to nodes;
    - the script itself, in a state-and-exception monad in which a raised
      [OSError] keeps the filesystem and the output produced so far;
    - the facts proved about the script. *)

From Stdlib Require Import ZArith Ascii String.
From stdpp Require Import base strings list gmap fin_maps.

Local Open Scope string_scope.

(** ** Paths as strings: [posixpath.join] and path resolution *)

Definition starts_with_sep (s : string) : bool :=
  match s with
  | String c _ => Ascii.eqb c "/"
  | EmptyString => false
  end.

Fixpoint ends_with_sep (s : string) : bool :=
  match s with
  | EmptyString => false
  | String c EmptyString => Ascii.eqb c "/"
  | String _ s' => ends_with_sep s'
  end.

(** [os.path.join(a, b)] on a POSIX system. *)
Definition path_join (a b : string) : string :=
  if starts_with_sep b then b
  else if String.eqb a "" || ends_with_sep a then a +:+ b
  else a +:+ "/" +:+ b.

(** The pieces of a path string between its separators. *)
Fixpoint components (s : string) : list string :=
  match s with
  | EmptyString => [EmptyString]
  | String c s' =>
      if Ascii.eqb c "/" then EmptyString :: components s'
      else match components s' with
           | [] => [String c EmptyString]
           | x :: xs => String c x :: xs
           end
  end.

(** A resolved path is the list of its directory names, innermost first, so
    that the parent of a path is its tail and the working directory is the
    empty list.  Empty pieces and "." name the directory they stand in.  The
    script only builds relative paths without "..". *)
Definition resolve (s : string) : list string :=
  rev (filter (λ c : string, c ≠ "" ∧ c ≠ ".") (components s)).

(** ** The filesystem below the working directory *)

Inductive node :=
  | File (content : list Byte.byte)
  | Dir (writable : bool).

Inductive OSError :=
  | FileExistsError
  | FileNotFoundError
  | NotADirectoryError
  | IsADirectoryError
  | PermissionError.

(** What the process can observe and change: the tree below the working
    directory and the lines written to standard output. *)
Record world := World {
  tree : gmap (list string) node;
  stdout : list string
}.

(** Every object other than the working directory sits in a directory. *)
Definition well_formed (s : gmap (list string) node) : Prop :=
  ∀ x p n, s !! (x :: p) = Some n → ∃ w, s !! p = Some (Dir w).

Definition well_formedb (s : gmap (list string) node) : bool :=
  forallb (λ '(p, _), match p with
                      | [] => true
                      | _ :: q => match s !! q with
                                  | Some (Dir _) => true
                                  | _ => false
                                  end
                      end) (map_to_list s).

(** [os.mkdir]: the path must be free and its parent a directory the process
    may write to.  A new directory is writable by its creator. *)
Definition mkdir (p : list string) (s : gmap (list string) node)
  : OSError + gmap (list string) node :=
  match s !! p with
  | Some _ => inl FileExistsError
  | None =>
      match p with
      | [] => inl FileNotFoundError
      | _ :: head =>
          match s !! head with
          | None => inl FileNotFoundError
          | Some (File _) => inl NotADirectoryError
          | Some (Dir false) => inl PermissionError
          | Some (Dir true) => inr (<[p := Dir true]> s)
          end
      end
  end.

(** [os.makedirs(name)] with [exist_ok=False]: make the missing ancestors
    first (a [FileExistsError] from that recursive call is swallowed), then
    [mkdir] the leaf. *)
Fixpoint makedirs (p : list string) (s : gmap (list string) node)
  : OSError + gmap (list string) node :=
  match p with
  | [] => mkdir [] s
  | _ :: head =>
      match s !! head with
      | Some _ => mkdir p s
      | None =>
          match makedirs head s with
          | inr s' => mkdir p s'
          | inl FileExistsError => mkdir p s
          | inl e => inl e
          end
      end
  end.

(** [open(name, 'w')] followed by closing the file: an existing regular file
    is truncated, a missing one is created empty in a writable directory. *)
Definition creat (p : list string) (s : gmap (list string) node)
  : OSError + gmap (list string) node :=
  match s !! p with
  | Some (File _) => inr (<[p := File []]> s)
  | Some (Dir _) => inl IsADirectoryError
  | None =>
      match p with
      | [] => inl FileNotFoundError
      | _ :: head =>
          match s !! head with
          | None => inl FileNotFoundError
          | Some (File _) => inl NotADirectoryError
          | Some (Dir false) => inl PermissionError
          | Some (Dir true) => inr (<[p := File []]> s)
          end
      end
  end.

(** ** The monad of the script: state, with exceptions that keep the state *)

Definition M (A : Type) : Type := world → (OSError + A) * world.

Definition ret {A} (a : A) : M A := λ w, (inr a, w).

Definition bind {A B} (m : M A) (k : A → M B) : M B :=
  λ w, match m w with
       | (inr a, w') => k a w'
       | (inl e, w') => (inl e, w')
       end.

Declare Scope os_scope.
Delimit Scope os_scope with os.
Notation "'let*' x ':=' m 'in' k" := (bind m (λ x, k))
  (at level 10, x name, m at level 200, k at level 200) : os_scope.
Notation "m1 '>>' m2" := (bind m1 (λ _, m2))
  (at level 100, m2 at level 200, right associativity) : os_scope.

(** A [for] loop over a list. *)
Fixpoint for_ {A} (l : list A) (body : A → M unit) : M unit :=
  match l with
  | [] => ret tt
  | x :: l' => bind (body x) (λ _, for_ l' body)
  end.

(** Lift a filesystem call: on an error nothing changes. *)
Definition syscall (op : gmap (list string) node → OSError + gmap (list string) node)
  : M unit :=
  λ w, match op (tree w) with
       | inr s' => (inr tt, World s' (stdout w))
       | inl e => (inl e, w)
       end.

Definition path_exists (name : string) : M bool :=
  λ w, (inr (bool_decide (is_Some (tree w !! resolve name))), w).

Definition os_makedirs (name : string) : M unit := syscall (makedirs (resolve name)).

Definition open_w (name : string) : M unit := syscall (creat (resolve name)).

Definition print (line : string) : M unit :=
  λ w, (inr tt, World (tree w) (stdout w ++ [line])).

(** ** The script *)

(** The literal [directories] of [create_structure], in source order. *)
Definition directories : list (string * list string) :=
  [ ("public/fonts", []);
    ("public/icons", []);
    ("public/presets", []);
    ("app/api/export", ["route.ts"]);
    ("app/api/presets", ["route.ts"]);
    ("components/ui",
       ["Button.tsx"; "Slider.tsx"; "Knob.tsx"; "Switch.tsx";
        "Card.tsx"; "Modal.tsx"; "Tabs.tsx"; "Dropdown.tsx"; "Tooltip.tsx"]);
    ("components/layout", ["Header.tsx"; "Footer.tsx"; "Sidebar.tsx"]);
    ("components/audio",
       ["SoundGrid.tsx"; "SoundCard.tsx"; "Timeline.tsx"; "Track.tsx";
        "TrackControls.tsx"; "TimelineControls.tsx"; "Waveform.tsx"; "Spectrum.tsx"]);
    ("components/modals", ["SoundEditor.tsx"; "ExportModal.tsx"; "PresetModal.tsx"]);
    ("components/controls",
       ["VolumeControl.tsx"; "PanControl.tsx"; "PitchControl.tsx";
        "FilterControls.tsx"; "EnvelopeControls.tsx"; "LFOControls.tsx";
        "EffectsControls.tsx"; "EQControls.tsx"; "DynamicsControls.tsx";
        "SpatialControls.tsx"]);
    ("lib/audio",
       ["audioContext.ts"; "generators.ts"; "processors.ts"; "effects.ts"; "exporters.ts"]);
    ("lib/hooks", ["useAudioNode.ts"; "useTimeline.ts"; "usePresets.ts"; "useDragResize.ts"]);
    ("lib/utils", ["animations.ts"; "storage.ts"; "format.ts"]);
    ("types", ["audio.ts"; "preset.ts"; "ui.ts"]);
    ("store", ["index.ts"]);
    ("store/slices", ["timelineSlice.ts"; "soundsSlice.ts"; "uiSlice.ts"]) ].

Definition summary_line : string := "Successfully extended project structure.".

Local Open Scope os_scope.

(** One turn of the outer loop: the directory, then its files in order. *)
Definition process_entry (base_dir : string) (entry : string * list string) : M unit :=
  let '(directory, files) := entry in
  let full_dir_path := path_join base_dir directory in
  (let* present := path_exists full_dir_path in
   if negb present then
     os_makedirs full_dir_path >>
     print ("Created directory: " +:+ directory)
   else ret tt) >>
  for_ files (λ file,
    let file_path := path_join full_dir_path file in
    let* present := path_exists file_path in
    if negb present then
      open_w file_path >>
      print ("Created file: " +:+ directory +:+ "/" +:+ file)
    else ret tt).

(** The body of [create_structure] over a given table: the source binds
    [base_dir] and [directories] as locals and then runs this loop and the
    closing [print]. *)
Definition create_structure_over (base_dir : string)
    (directories : list (string * list string)) : M unit :=
  for_ directories (process_entry base_dir) >>
  print summary_line.

Definition create_structure : M unit :=
  let base_dir := "." in
  create_structure_over base_dir directories.

(** ** The process: [if __name__ == "__main__": create_structure()]

    The script never reads [sys.argv] or the environment.  An exception
    nobody catches makes the interpreter write a traceback that ends with
    the exception's class to standard error and exit with status 1. *)

Definition exception_name (e : OSError) : string :=
  match e with
  | FileExistsError => "FileExistsError"
  | FileNotFoundError => "FileNotFoundError"
  | NotADirectoryError => "NotADirectoryError"
  | IsADirectoryError => "IsADirectoryError"
  | PermissionError => "PermissionError"
  end.

Record process := Process {
  exit_code : Z;
  final : world;
  stderr : list string
}.

Definition main (argv : list string) (environ : list (string * string))
    (w : world) : process :=
  match create_structure w with
  | (inr _, w') => Process 0 w' []
  | (inl e, w') =>
      Process 1 w' ["Traceback (most recent call last):"; exception_name e]
  end.

(** ** The walk as a flat sequence of guarded creations *)

Inductive action :=
  | MakeDir (directory : string)
  | Touch (directory file : string).

Definition dir_path (directory : string) : list string :=
  resolve (path_join "." directory).

Definition file_path (directory file : string) : list string :=
  resolve (path_join (path_join "." directory) file).

Definition target (a : action) : list string :=
  match a with
  | MakeDir d => dir_path d
  | Touch d f => file_path d f
  end.

Definition log_line (a : action) : string :=
  match a with
  | MakeDir d => "Created directory: " +:+ d
  | Touch d f => "Created file: " +:+ d +:+ "/" +:+ f
  end.

Definition create (a : action) : gmap (list string) node → OSError + gmap (list string) node :=
  match a with
  | MakeDir _ => makedirs (target a)
  | Touch _ _ => creat (target a)
  end.

Definition perform (a : action) : M unit :=
  match a with
  | MakeDir d =>
      let* present := path_exists (path_join "." d) in
      if negb present then
        os_makedirs (path_join "." d) >> print ("Created directory: " +:+ d)
      else ret tt
  | Touch d f =>
      let* present := path_exists (path_join (path_join "." d) f) in
      if negb present then
        open_w (path_join (path_join "." d) f) >>
        print ("Created file: " +:+ d +:+ "/" +:+ f)
      else ret tt
  end.

Local Close Scope os_scope.

Definition entry_actions (entry : string * list string) : list action :=
  MakeDir entry.1 :: map (Touch entry.1) entry.2.

Definition actions (spec : list (string * list string)) : list action :=
  flat_map entry_actions spec.

(** What an action puts on disk when it has to create something. *)
Definition kind (a : action) : node :=
  match a with
  | MakeDir _ => Dir true
  | Touch _ _ => File []
  end.

(** The paths an action brings into existence unless they are there
    already: a directory and its ancestors, or one file. *)
Definition produces (a : action) (p : list string) : Prop :=
  match a with
  | MakeDir d => p ≠ [] ∧ p `suffix_of` dir_path d
  | Touch d f => p = file_path d f
  end.

#[global] Instance produces_dec a p : Decision (produces a p).
Proof. destruct a; simpl; apply _. Defined.

(** The tree a complete walk over [acts] leaves, read path by path: what was
    there stays, what was missing appears with the kind of its action. *)
Definition outcome (s : gmap (list string) node) (acts : list action)
    (p : list string) (n : node) : Prop :=
  s !! p = Some n ∨
  (s !! p = None ∧ ∃ a, a ∈ acts ∧ produces a p ∧ n = kind a).


(** A table is coherent when every file sits directly in the directory of
    its entry and no file path is a directory path or one of its ancestors. *)
Definition coherent (acts : list action) : Prop :=
  (∀ a, a ∈ acts → target a ≠ []) ∧
  (∀ d f, Touch d f ∈ acts → tail (file_path d f) = dir_path d) ∧
  (∀ d f d', Touch d f ∈ acts → MakeDir d' ∈ acts →
     ¬ file_path d f `suffix_of` dir_path d').

Definition coherentb (acts : list action) : bool :=
  forallb (λ a,
    negb (bool_decide (target a = [])) &&
    match a with
    | MakeDir _ => true
    | Touch d f =>
        bool_decide (tail (file_path d f) = dir_path d) &&
        forallb (λ b, match b with
                      | MakeDir d' =>
                          negb (bool_decide (file_path d f `suffix_of` dir_path d'))
                      | Touch _ _ => true
                      end) acts
    end) acts.


(** No action's own path is brought into existence by an earlier one. *)
Fixpoint fresh (acts : list action) : Prop :=
  match acts with
  | [] => True
  | a :: rest => (∀ b, b ∈ rest → ¬ produces a (target b)) ∧ fresh rest
  end.

Fixpoint freshb (acts : list action) : bool :=
  match acts with
  | [] => true
  | a :: rest =>
      forallb (λ b, negb (bool_decide (produces a (target b)))) rest && freshb rest
  end.

(** The progress lines of a walk from tree [s]: one per action whose path
    is absent from [s]. *)
Definition expected_log (s : gmap (list string) node) (acts : list action)
    : list string :=
  flat_map (λ a, if bool_decide (is_Some (s !! target a)) then []
                 else [log_line a]) acts.

(** A reordering of a table: the entries permuted and the file list of each
    entry permuted. *)
Definition reordering (spec spec' : list (string * list string)) : Prop :=
  ∃ mid, spec ≡ₚ mid ∧
         Forall2 (λ e e', e.1 = e'.1 ∧ e.2 ≡ₚ e'.2) mid spec'.




(** The new lines a run appended to standard output. *)
Definition emitted (w w' : world) : list string :=
  drop (length (stdout w)) (stdout w').

(** An empty, writable working directory. *)
Definition empty_base : world := World {[ [] := Dir true ]} [].

(** [directories[d]] on a table. *)
Fixpoint lookup_entry (directory : string) (spec : list (string * list string))
    : option (list string) :=
  match spec with
  | [] => None
  | (d, fl) :: rest =>
      if String.eqb directory d then Some fl else lookup_entry directory rest
  end.

(** A base where [components/ui/Button.tsx] already holds 500 bytes. *)
Definition button_base : world :=
  World (<[ ["Button.tsx"; "ui"; "components"] := File (replicate 500 Byte.x2f) ]>
         (<[ ["ui"; "components"] := Dir true ]>
          (<[ ["components"] := Dir true ]> {[ [] := Dir true ]}))) [].

(** A base where a regular file sits at [store]. *)
Definition store_file_base : world :=
  World (<[ ["store"] := File [Byte.x2f] ]> {[ [] := Dir true ]}) [].

(** A base where a regular file sits at [public/fonts]. *)
Definition fonts_file_base : world :=
  World (<[ ["fonts"; "public"] := File [Byte.x2f] ]>
         (<[ ["public"] := Dir true ]> {[ [] := Dir true ]})) [].

(** A base the process may not write to. *)
Definition read_only_base : world := World {[ [] := Dir false ]} [].

(** A base with a sub-directory [out]. *)
Definition out_base : world :=
  World (<[ ["out"] := Dir true ]> {[ [] := Dir true ]}) [].

(** The table written backwards, every file list backwards too. *)
Definition backwards (spec : list (string * list string))
    : list (string * list string) :=
  map (λ e, (e.1, rev e.2)) (rev spec).

(** A base where a directory sits at [store/index.ts]. *)
Definition index_dir_base : world :=
  World (<[ ["index.ts"; "store"] := Dir true ]>
         (<[ ["store"] := Dir true ]> {[ [] := Dir true ]})) [].

(** [button_base] with a regular file at [public], which stops the walk in
    its first turn. *)
Definition blocked_button_base : world :=
  World (<[ ["public"] := File [Byte.x2f] ]> (tree button_base)) [].

(** [button_base] with a regular file at [store], which stops the walk
    after the turn of [components/ui]. *)
Definition button_store_base : world :=
  World (<[ ["store"] := File [Byte.x2f] ]> (tree button_base)) [].

(** The progress lines that belong to what a run created: one per action
    whose path was absent from [s] and is present in [s']. *)
Definition created_log (s s' : gmap (list string) node) (acts : list action)
    : list string :=
  flat_map (λ a, if bool_decide (s !! target a = None ∧ is_Some (s' !! target a))
                 then [log_line a] else []) acts.

(** ** Tables for which path resolution models the real calls

    [resolve] reads every piece of a path as a name below the working
    directory.  That is what the system does for relative paths whose pieces
    are ordinary names: no "..", no NUL byte, at most 255 bytes a name and
    4095 bytes a path.  A listed file is one such name. *)

Definition plain_name (c : string) : bool :=
  negb (String.eqb c "") && negb (String.eqb c ".") &&
  negb (String.eqb c "..") &&
  forallb (λ ch, negb (Ascii.eqb ch "/") && negb (Ascii.eqb ch Ascii.zero))
          (list_ascii_of_string c) &&
  (String.length c <=? 255)%nat.

Definition plain_directory (d : string) : bool :=
  negb (starts_with_sep d) &&
  forallb (λ c, String.eqb c "" || String.eqb c "." || plain_name c)
          (components d) &&
  negb (bool_decide (resolve d = [])) &&
  (String.length (path_join "." d) <=? 4095)%nat.

Definition plain_table (spec : list (string * list string)) : bool :=
  forallb (λ '(d, fl),
    plain_directory d &&
    forallb (λ f, plain_name f &&
                  (String.length (path_join (path_join "." d) f) <=? 4095)%nat)
            fl) spec.

(** ** The process's credentials

    The model above fixes the process: an ordinary user with a umask that
    leaves the owner's write bit on what it creates.  Here both are inputs.
    The [writable] flag of a directory is the owner's write bit; the
    superuser passes every permission check; a new directory gets the
    write bit the umask leaves.  [os.makedirs] keeps the ancestors it made
    when a later [mkdir] fails. *)













Local Open Scope os_scope.



Local Close Scope os_scope.



(** The effect of one successful action on the tree: the tree stays well
    formed, gains exactly the missing paths the action produces, and every
    path it gains lies in a writable directory. *)
Definition extends_by (a : action) (s s1 : gmap (list string) node) : Prop :=
  well_formed s1 ∧
  (∀ p n, s1 !! p = Some n ↔
          s !! p = Some n ∨ (s !! p = None ∧ produces a p ∧ n = kind a)) ∧
  (∀ x q, s !! (x :: q) = None → is_Some (s1 !! (x :: q)) →
          s1 !! q = Some (Dir true)).

(** * Facts about the monad and the shape of the walk *)

Lemma bind_assoc {A B C} (m : M A) (k : A → M B) (h : B → M C) w :
  bind (bind m k) h w = bind m (λ a, bind (k a) h) w.
Proof. unfold bind. destruct (m w) as [[e|a] w1]; reflexivity. Qed.

Lemma bind_ext {A B} (m m' : M A) (k k' : A → M B) w :
  m w = m' w → (∀ a w1, k a w1 = k' a w1) → bind m k w = bind m' k' w.
Proof.
  intros Hm Hk. unfold bind. rewrite Hm.
  destruct (m' w) as [[e|a] w1]; [reflexivity|apply Hk].
Qed.

Lemma for_app {A} (l1 l2 : list A) (body : A → M unit) w :
  for_ (l1 ++ l2) body w = bind (for_ l1 body) (λ _, for_ l2 body) w.
Proof.
  revert w. induction l1 as [|x l1 IH]; intros w; simpl; [reflexivity|].
  rewrite bind_assoc. unfold bind.
  destruct (body x w) as [[e|[]] w1]; [reflexivity|]. apply IH.
Qed.

Lemma for_map {A B} (g : A → B) (l : list A) (body : B → M unit) w :
  for_ (map g l) body w = for_ l (λ x, body (g x)) w.
Proof.
  revert w. induction l as [|x l IH]; intros w; simpl; [reflexivity|].
  unfold bind. destruct (body (g x) w) as [[e|[]] w1]; [reflexivity|]. apply IH.
Qed.

Lemma process_entry_flat entry w :
  process_entry "." entry w = for_ (entry_actions entry) perform w.
Proof.
  destruct entry as [d fl]. unfold entry_actions, process_entry. simpl.
  apply bind_ext; [reflexivity|]. intros _ w1.
  rewrite for_map. reflexivity.
Qed.

Lemma walk_flat spec w :
  for_ spec (process_entry ".") w = for_ (actions spec) perform w.
Proof.
  revert w. induction spec as [|entry spec IH]; intros w; [reflexivity|].
  change (actions (entry :: spec))
    with ((entry_actions entry ++ actions spec)%list).
  rewrite for_app. simpl.
  apply bind_ext; [apply process_entry_flat|]. intros _ w1. apply IH.
Qed.

Lemma create_structure_over_flat spec w :
  create_structure_over "." spec w =
  bind (for_ (actions spec) perform) (λ _, print summary_line) w.
Proof.
  unfold create_structure_over. apply bind_ext; [apply walk_flat|done].
Qed.

(** One action either finds its path present and does nothing, or creates
    it and prints its line, or fails and leaves the world as it was. *)
Lemma perform_cases a w :
  (is_Some (tree w !! target a) ∧ perform a w = (inr tt, w)) ∨
  (tree w !! target a = None ∧
     ∃ s', create a (tree w) = inr s' ∧
           perform a w = (inr tt, World s' (stdout w ++ [log_line a]))) ∨
  (tree w !! target a = None ∧
     ∃ e, create a (tree w) = inl e ∧ perform a w = (inl e, w)).
Proof.
  destruct a as [d|d f]; simpl;
    unfold bind, path_exists, os_makedirs, open_w, syscall, print, dir_path,
      file_path; simpl;
    case_bool_decide as Hp; simpl.
  - left. done.
  - right. apply eq_None_not_Some in Hp.
    destruct (makedirs _ _) as [e|s'] eqn:Hm; [right|left]; eauto.
  - left. done.
  - right. apply eq_None_not_Some in Hp.
    destruct (creat _ _) as [e|s'] eqn:Hm; [right|left]; eauto.
Qed.

(** * Facts about the filesystem calls *)

Lemma well_formedb_correct s : well_formedb s = true → well_formed s.
Proof.
  unfold well_formedb, well_formed. rewrite forallb_forall.
  intros H x p n Hl.
  specialize (H (x :: p, n)). simpl in H.
  destruct (s !! p) as [[c|wr]|] eqn:Hp.
  - discriminate H. apply list_elem_of_In, elem_of_map_to_list, Hl.
  - eauto.
  - discriminate H. apply list_elem_of_In, elem_of_map_to_list, Hl.
Qed.

Lemma suffix_cons_cases {A} (q : list A) x p :
  q `suffix_of` x :: p → q = x :: p ∨ q `suffix_of` p.
Proof.
  intros [k Hk]. destruct k as [|y k]; simpl in Hk; [by left|].
  right. injection Hk as _ ->. by exists k.
Qed.

Lemma well_formed_suffix s p q :
  well_formed s → is_Some (s !! p) → q `suffix_of` p → is_Some (s !! q).
Proof.
  intros Hwf. induction p as [|x p IH]; intros Hp Hq.
  - apply suffix_nil_inv in Hq. by subst.
  - apply suffix_cons_cases in Hq as [->|Hq]; [done|].
    apply IH; [|done]. destruct Hp as [n Hn].
    destruct (Hwf _ _ _ Hn) as [wr Hwr]. eauto.
Qed.

Lemma well_formed_insert s x head wr n :
  well_formed s → s !! head = Some (Dir wr) → s !! (x :: head) = None →
  well_formed (<[x :: head := n]> s).
Proof.
  intros Hwf Hh Hp y q m. rewrite lookup_insert_Some.
  intros [[Heq _]|[Hne Hm]].
  - injection Heq as _ <-. exists wr. rewrite lookup_insert_ne; [done|].
    intros Hbad. apply (f_equal length) in Hbad. simpl in Hbad. lia.
  - destruct (Hwf _ _ _ Hm) as [wr' Hq]. exists wr'.
    rewrite lookup_insert_ne; [done|]. intros <-. congruence.
Qed.

Lemma mkdir_inv p s s1 :
  mkdir p s = inr s1 →
  ∃ x head, p = x :: head ∧ s !! p = None ∧ s !! head = Some (Dir true) ∧
            s1 = <[p := Dir true]> s.
Proof.
  unfold mkdir. destruct (s !! p) eqn:Hp; [discriminate|].
  destruct p as [|x head]; [discriminate|].
  destruct (s !! head) as [[c|[|]]|] eqn:Hh; try discriminate.
  intros [= <-]. eauto 10.
Qed.

Lemma creat_inv p s s1 :
  s !! p = None → creat p s = inr s1 →
  ∃ x head, p = x :: head ∧ s !! head = Some (Dir true) ∧
            s1 = <[p := File []]> s.
Proof.
  unfold creat. intros ->.
  destruct p as [|x head]; [discriminate|].
  destruct (s !! head) as [[c|[|]]|] eqn:Hh; try discriminate.
  intros [= <-]. eauto 10.
Qed.

Lemma cons_ne_self {A} (x : A) l : l ≠ x :: l.
Proof. intros H. apply (f_equal length) in H. simpl in H. lia. Qed.

(** [makedirs] on a missing path adds exactly the missing ancestors, as
    writable directories. *)
Lemma makedirs_spec p : ∀ s s1,
  well_formed s → s !! p = None → makedirs p s = inr s1 →
  well_formed s1 ∧
  (∀ q n, s1 !! q = Some n ↔
          s !! q = Some n ∨
          (s !! q = None ∧ (q ≠ [] ∧ q `suffix_of` p) ∧ n = Dir true)) ∧
  (∀ x q, s !! (x :: q) = None → is_Some (s1 !! (x :: q)) →
          s1 !! q = Some (Dir true)).
Proof.
  induction p as [|x head IH]; intros s s1 Hwf Hp Hm; simpl in Hm.
  { unfold mkdir in Hm. rewrite Hp in Hm. discriminate. }
  destruct (s !! head) as [nh|] eqn:Hh.
  - apply mkdir_inv in Hm as (x' & head' & [= <- <-] & _ & Hd & ->).
    split; [by eapply well_formed_insert|]. split.
    + intros q n. rewrite lookup_insert_Some. split.
      * intros [[<- <-]|[Hne Hq]]; [right|left; done].
        split; [done|]. split; [|done]. split; [done|reflexivity].
      * intros [Hq|(Hq & [Hne Hsuf] & ->)].
        { right. split; [|done]. intros <-. congruence. }
        destruct (decide (x :: head = q)) as [<-|Hne']; [left; done|].
        exfalso. apply suffix_cons_cases in Hsuf as [->|Hsuf]; [done|].
        destruct (well_formed_suffix s head q) as [m Hm]; eauto. congruence.
    + intros y q Hnone [m Hm]. apply lookup_insert_Some in Hm.
      destruct Hm as [[[= <- <-] _]|[_ Hm]]; [|congruence].
      rewrite lookup_insert_ne; [done|]. apply not_eq_sym, cons_ne_self.
  - destruct (makedirs head s) as [e|s'] eqn:Hrec.
    { destruct e; try discriminate;
        apply mkdir_inv in Hm as (x' & head' & [= <- <-] & _ & Hd & _);
        congruence. }
    apply mkdir_inv in Hm as (x' & head' & [= <- <-] & Hp' & Hd & ->).
    destruct (IH s s' Hwf Hh Hrec) as (Hwf' & Hchar & Hpar).
    split; [by eapply well_formed_insert|]. split.
    + intros q n. rewrite lookup_insert_Some, Hchar. split.
      * intros [[<- <-]|[Hne [Hq|(Hq & [Hne' Hsuf] & ->)]]].
        -- right. split; [done|]. split; [|done]. split; [done|reflexivity].
        -- by left.
        -- right. split; [done|]. split; [|done]. split; [done|].
           by apply suffix_cons_r.
      * intros [Hq|(Hq & [Hne Hsuf] & ->)].
        { right. split; [intros <-; congruence|]. by left. }
        destruct (decide (x :: head = q)) as [<-|Hne']; [left; done|].
        right. split; [done|]. right. split; [done|]. split; [|done].
        split; [done|].
        apply suffix_cons_cases in Hsuf as [->|Hsuf]; [done|done].
    + intros y q Hnone [m Hm]. apply lookup_insert_Some in Hm.
      destruct Hm as [[[= <- <-] _]|[Hne Hm]].
      * rewrite lookup_insert_ne; [done|]. apply not_eq_sym, cons_ne_self.
      * assert (s' !! q = Some (Dir true)) as Hq by (apply (Hpar y); eauto).
        rewrite lookup_insert_ne; [done|]. intros <-. congruence.
Qed.

(** * Facts about single actions *)

Lemma produces_suffix a p : produces a p → p `suffix_of` target a.
Proof. destruct a; simpl; [by intros [_ ?]|by intros ->]. Qed.

Lemma produces_target a : target a ≠ [] → produces a (target a).
Proof. destruct a; simpl; [|done]. intros Hne. split; [done|reflexivity]. Qed.

Lemma create_extends a s s1 :
  well_formed s → s !! target a = None → create a s = inr s1 →
  extends_by a s s1.
Proof.
  intros Hwf Hp Hc. destruct a as [d|d f]; simpl in *.
  - by apply makedirs_spec.
  - apply creat_inv in Hc as (x & head & Heq & Hh & ->); [|done].
    rewrite Heq in *. split; [by eapply well_formed_insert|]. split.
    + intros q n. rewrite lookup_insert_Some. split.
      * intros [[<- <-]|[Hne Hq]]; [right; done|by left].
      * intros [Hq|(Hq & -> & ->)]; [|by left].
        right. split; [intros <-; congruence|done].
    + intros y q Hnone [m Hm]. apply lookup_insert_Some in Hm.
      destruct Hm as [[[= <- <-] _]|[_ Hm]]; [|congruence].
      rewrite lookup_insert_ne; [done|]. apply not_eq_sym, cons_ne_self.
Qed.

Lemma present_extends a s :
  well_formed s → is_Some (s !! target a) → extends_by a s s.
Proof.
  intros Hwf Hp. split; [done|]. split.
  - intros q n. split; [by left|]. intros [Hq|(Hq & Hpr & _)]; [done|].
    destruct (well_formed_suffix s (target a) q) as [m Hm];
      [done..|by apply produces_suffix|congruence].
  - intros y q Hnone [m Hm]. congruence.
Qed.

Lemma perform_extends a w w1 :
  well_formed (tree w) → perform a w = (inr tt, w1) →
  extends_by a (tree w) (tree w1).
Proof.
  intros Hwf Hrun.
  destruct (perform_cases a w)
    as [[Hp Heq]|[(Hp & s' & Hc & Heq)|(Hp & e & Hc & Heq)]];
    rewrite Heq in Hrun; simplify_eq.
  - by apply present_extends.
  - by apply create_extends.
Qed.

Lemma extends_by_mono a s s1 p n :
  extends_by a s s1 → s !! p = Some n → s1 !! p = Some n.
Proof. intros (_ & Hchar & _) Hp. apply Hchar. by left. Qed.

Lemma extends_by_none a s s1 p :
  extends_by a s s1 → s1 !! p = None → s !! p = None.
Proof.
  intros Hext Hp. destruct (s !! p) as [n|] eqn:Hs; [|done].
  rewrite (extends_by_mono a s s1 p n Hext Hs) in Hp. done.
Qed.

Lemma extends_by_produces a s s1 p :
  extends_by a s s1 → produces a p → is_Some (s1 !! p).
Proof.
  intros (_ & Hchar & _) Hpr. destruct (s !! p) as [n|] eqn:Hs.
  - exists n. apply Hchar. by left.
  - exists (kind a). apply Hchar. right. done.
Qed.

(** * Facts about tables *)

Lemma coherentb_correct acts : coherentb acts = true → coherent acts.
Proof.
  unfold coherentb. rewrite forallb_forall. intros H.
  split; [|split].
  - intros a Ha. apply list_elem_of_In, H in Ha.
    apply andb_prop in Ha as [Ha _].
    apply negb_true_iff, bool_decide_eq_false in Ha. done.
  - intros d f Ha. apply list_elem_of_In, H in Ha.
    apply andb_prop in Ha as [_ Ha]. apply andb_prop in Ha as [Ha _].
    by apply bool_decide_eq_true in Ha.
  - intros d f d' Ha Hb. apply list_elem_of_In, H in Ha.
    apply andb_prop in Ha as [_ Ha]. apply andb_prop in Ha as [_ Ha].
    rewrite forallb_forall in Ha. apply list_elem_of_In, Ha in Hb.
    apply negb_true_iff, bool_decide_eq_false in Hb. done.
Qed.

Lemma freshb_correct acts : freshb acts = true → fresh acts.
Proof.
  induction acts as [|a rest IH]; simpl; [done|].
  intros H. apply andb_prop in H as [Ha Hrest]. split; [|by apply IH].
  rewrite forallb_forall in Ha. intros b Hb. apply list_elem_of_In, Ha in Hb.
  apply negb_true_iff, bool_decide_eq_false in Hb. done.
Qed.

Lemma coherent_incl acts acts' :
  (∀ a, a ∈ acts' → a ∈ acts) → coherent acts → coherent acts'.
Proof.
  intros Hin (H1 & H2 & H3). split; [|split].
  - intros a Ha. apply H1, Hin, Ha.
  - intros d f Ha. apply H2, Hin, Ha.
  - intros d f d' Ha Hb. apply H3; apply Hin; done.
Qed.

Lemma coherent_tail a rest : coherent (a :: rest) → coherent rest.
Proof. apply coherent_incl. intros b Hb. by right. Qed.

Lemma coherent_kind acts a b p :
  coherent acts → a ∈ acts → b ∈ acts → produces a p → produces b p →
  kind a = kind b.
Proof.
  intros (_ & _ & H3) Ha Hb Hpa Hpb.
  destruct a as [d|d f], b as [d'|d' f']; simpl in *; try done.
  - destruct Hpa as [_ Hsuf]. subst p. destruct (H3 _ _ _ Hb Ha Hsuf).
  - destruct Hpb as [_ Hsuf]. subst p. destruct (H3 _ _ _ Ha Hb Hsuf).
Qed.


(** Taking one step first does not change where the walk ends. *)
Lemma outcome_step a rest s s1 p n :
  coherent (a :: rest) → extends_by a s s1 →
  outcome s1 rest p n ↔ outcome s (a :: rest) p n.
Proof.
  intros Hco Hext. pose proof Hext as (_ & Hchar & _). split.
  - intros [Hp|(Hp & b & Hb & Hpr & Hk)].
    + apply Hchar in Hp as [Hp|(Hp & Hpr & Hk)]; [by left|].
      right. split; [done|]. exists a. split; [by left|done].
    + right. split; [by eapply extends_by_none|].
      exists b. split; [by right|done].
  - intros [Hp|(Hp & b & Hb & Hpr & Hk)].
    + left. by eapply extends_by_mono.
    + destruct (s1 !! p) as [m|] eqn:Hs1.
      * left. rewrite Hs1.
        apply Hchar in Hs1 as [Hs1|(_ & Hpa & ->)]; [congruence|].
        subst n. f_equal.
        eapply (coherent_kind (a :: rest)); eauto. by left.
      * apply elem_of_cons in Hb as [->|Hb].
        { destruct (extends_by_produces _ _ _ _ Hext Hpr) as [m Hm].
          congruence. }
        right. split; [done|]. exists b. done.
Qed.

(** * Where a complete walk ends *)

Lemma walk_outcome acts : ∀ w w',
  well_formed (tree w) → coherent acts →
  for_ acts perform w = (inr tt, w') →
  well_formed (tree w') ∧
  (∀ p n, tree w' !! p = Some n ↔ outcome (tree w) acts p n) ∧
  (∀ x q, tree w !! (x :: q) = None → is_Some (tree w' !! (x :: q)) →
          tree w' !! q = Some (Dir true)).
Proof.
  induction acts as [|a rest IH]; intros w w' Hwf Hco Hrun; simpl in Hrun.
  { injection Hrun as <-. split; [done|]. split.
    - intros p n. split; [by left|]. intros [Hp|(_ & a & Ha & _)]; [done|].
      by apply elem_of_nil in Ha.
    - intros x q Hnone [m Hm]. congruence. }
  unfold bind in Hrun.
  destruct (perform a w) as [[e|[]] w1] eqn:Ha; [discriminate|].
  pose proof (perform_extends a w w1 Hwf Ha) as Hext.
  pose proof Hext as (Hwf1 & Hchar1 & Hpar1).
  destruct (IH w1 w' Hwf1 (coherent_tail _ _ Hco) Hrun)
    as (Hwf' & Hchar' & Hpar').
  split; [done|]. split.
  - intros p n. rewrite Hchar'. by apply outcome_step.
  - intros x q Hnone Hsome.
    destruct (tree w1 !! (x :: q)) as [m|] eqn:Hs1.
    + apply Hchar'. left. apply (Hpar1 x); eauto.
    + by apply (Hpar' x).
Qed.


(** * When a walk runs to its end *)




(** * Reordered tables run the same actions *)

Lemma elem_of_actions a spec :
  a ∈ actions spec ↔
  ∃ d fl, (d, fl) ∈ spec ∧ (a = MakeDir d ∨ ∃ f, f ∈ fl ∧ a = Touch d f).
Proof.
  unfold actions. rewrite list_elem_of_In, in_flat_map. split.
  - intros ([d fl] & Hin & Ha). exists d, fl.
    split; [by apply list_elem_of_In|].
    unfold entry_actions in Ha. simpl in Ha. destruct Ha as [<-|Ha]; [by left|].
    right. apply in_map_iff in Ha as (f & <- & Hf).
    exists f. split; [by apply list_elem_of_In|done].
  - intros (d & fl & Hin & Ha). exists (d, fl).
    split; [by apply list_elem_of_In|].
    unfold entry_actions. simpl. destruct Ha as [->|(f & Hf & ->)]; [by left|].
    right. apply in_map, list_elem_of_In, Hf.
Qed.





(** * Growth, settling and the output of a walk *)

Lemma makedirs_grows p : ∀ s s1, makedirs p s = inr s1 → s ⊆ s1 ∧ is_Some (s1 !! p).
Proof.
  assert (∀ p s s1, mkdir p s = inr s1 → s ⊆ s1 ∧ is_Some (s1 !! p)) as Hmk.
  { intros q s s1 Hm. apply mkdir_inv in Hm as (x & head & -> & Hp & _ & ->).
    split; [by apply insert_subseteq|]. rewrite lookup_insert_eq. eauto. }
  induction p as [|x head IH]; intros s s1 Hm; simpl in Hm; [by apply Hmk|].
  destruct (s !! head) as [nh|] eqn:Hh; [by apply Hmk|].
  destruct (makedirs head s) as [e|s'] eqn:Hrec.
  - destruct e; try discriminate. by apply Hmk.
  - destruct (IH _ _ Hrec) as [Hsub _]. destruct (Hmk _ _ _ Hm) as [Hsub' Hsome].
    split; [by etrans|done].
Qed.

Lemma create_grows a s s1 :
  s !! target a = None → create a s = inr s1 →
  s ⊆ s1 ∧ is_Some (s1 !! target a).
Proof.
  intros Hp Hc. destruct a as [d|d f]; simpl in *.
  - by apply makedirs_grows.
  - apply creat_inv in Hc as (x & head & Heq & _ & ->); [|done].
    split; [by apply insert_subseteq|]. rewrite lookup_insert_eq. eauto.
Qed.

Lemma perform_present a w :
  is_Some (tree w !! target a) → perform a w = (inr tt, w).
Proof.
  intros [n Hn].
  destruct (perform_cases a w) as [[_ Heq]|[(Hp & _)|(Hp & _)]];
    [done|congruence..].
Qed.

Lemma perform_grows a w r w1 :
  perform a w = (r, w1) →
  tree w ⊆ tree w1 ∧
  (r = inr tt → is_Some (tree w1 !! target a)) ∧
  (∀ e, r = inl e → w1 = w).
Proof.
  intros Hrun.
  destruct (perform_cases a w)
    as [[Hp Heq]|[(Hp & s' & Hc & Heq)|(Hp & e & Hc & Heq)]];
    rewrite Heq in Hrun; simplify_eq.
  - done.
  - destruct (create_grows _ _ _ Hp Hc). done.
  - done.
Qed.

Lemma walk_grows acts : ∀ w r w',
  for_ acts perform w = (r, w') → tree w ⊆ tree w'.
Proof.
  induction acts as [|a rest IH]; intros w r w' Hrun; simpl in Hrun.
  { by injection Hrun as _ <-. }
  unfold bind in Hrun. destruct (perform a w) as [[e|[]] w1] eqn:Ha.
  - injection Hrun as _ <-. by destruct (perform_grows _ _ _ _ Ha).
  - destruct (perform_grows _ _ _ _ Ha) as [Hsub _].
    etrans; [done|]. by eapply IH.
Qed.



(** The output of a walk does not depend on what was printed before. *)
Lemma walk_frame acts : ∀ s out1 out2 r w1,
  for_ acts perform (World s out1) = (r, w1) →
  ∃ lines, stdout w1 = (out1 ++ lines)%list ∧
           for_ acts perform (World s out2)
           = (r, World (tree w1) (out2 ++ lines)).
Proof.
  induction acts as [|a rest IH]; intros s out1 out2 r w1 Hrun; simpl in *.
  { injection Hrun as <- <-. exists []. by rewrite !app_nil_r. }
  unfold bind in *.
  destruct (perform_cases a (World s out1))
    as [[Hp Heq]|[(Hp & s' & Hc & Heq)|(Hp & e & Hc & Heq)]];
    rewrite Heq in Hrun; simpl in *.
  - rewrite (perform_present a (World s out2)); [|done]. by apply IH.
  - destruct (perform_cases a (World s out2))
      as [[[n Hn] _]|[(_ & s2 & Hc2 & Heq2)|(_ & e & Hc2 & _)]];
      simpl in *; [congruence| |congruence].
    rewrite Heq2. simpl. assert (s2 = s') as -> by congruence.
    destruct (IH _ _ (out2 ++ [log_line a])%list _ _ Hrun)
      as (lines & Hout & Hrun2).
    exists (log_line a :: lines). rewrite Hrun2.
    by rewrite Hout, <- !app_assoc.
  - injection Hrun as <- <-.
    destruct (perform_cases a (World s out2))
      as [[[n Hn] _]|[(_ & s2 & Hc2 & _)|(_ & e2 & Hc2 & Heq2)]];
      simpl in *; [congruence..|].
    rewrite Heq2. assert (e2 = e) as -> by congruence.
    exists []. by rewrite !app_nil_r.
Qed.

(** With a fresh table, whether an action prints is decided by the tree the
    walk started from. *)
Lemma walk_log acts : ∀ w w',
  well_formed (tree w) → fresh acts →
  for_ acts perform w = (inr tt, w') →
  stdout w' = (stdout w ++ expected_log (tree w) acts)%list.
Proof.
  induction acts as [|a rest IH]; intros w w' Hwf Hfresh Hrun; simpl in Hrun.
  { injection Hrun as <-. by rewrite app_nil_r. }
  unfold bind in Hrun. destruct Hfresh as [Hfa Hfresh].
  destruct (perform a w) as [[e|[]] w1] eqn:Ha; [discriminate|].
  pose proof (perform_extends a w w1 Hwf Ha) as Hext.
  rewrite (IH w1 w' (proj1 Hext) Hfresh Hrun).
  assert (expected_log (tree w1) rest = expected_log (tree w) rest) as ->.
  { unfold expected_log. clear -Hext Hfa.
    induction rest as [|b rest IH]; [done|]. simpl.
    rewrite IH; [|intros c Hc; apply Hfa; by right]. f_equal.
    assert (is_Some (tree w1 !! target b) ↔ is_Some (tree w !! target b)) as Hiff.
    { split; intros [n Hn].
      - apply (proj1 (proj2 Hext)) in Hn as [Hn|(_ & Hpr & _)]; [eauto|].
        destruct (Hfa b); [by left|done].
      - exists n. by eapply extends_by_mono. }
    by rewrite (bool_decide_ext _ _ Hiff). }
  unfold expected_log at 2. simpl. fold (expected_log (tree w) rest).
  destruct (perform_cases a w)
    as [[Hp Heq]|[(Hp & s' & Hc & Heq)|(Hp & e & Hc & Heq)]];
    rewrite Heq in Ha; simplify_eq.
  - by rewrite bool_decide_eq_true_2.
  - simpl. rewrite bool_decide_eq_false_2; [|by rewrite Hp; apply is_Some_None].
    by rewrite <- app_assoc.
Qed.


(** * The table of the script *)

#[local] Arguments directories : simpl never.

Lemma directories_coherent : coherent (actions directories).
Proof. apply coherentb_correct. vm_compute. reflexivity. Qed.

Lemma directories_fresh : fresh (actions directories).
Proof. apply freshb_correct. vm_compute. reflexivity. Qed.






Lemma create_structure_over_result spec w :
  create_structure_over "." spec w =
  match for_ (actions spec) perform w with
  | (inl e, w1) => (inl e, w1)
  | (inr _, w1) => (inr tt, World (tree w1) (stdout w1 ++ [summary_line]))
  end.
Proof.
  rewrite create_structure_over_flat.
  unfold bind. by destruct (for_ (actions spec) perform w) as [[e|[]] w1].
Qed.

Lemma create_structure_over_ok spec w w' :
  create_structure_over "." spec w = (inr tt, w') →
  ∃ w1, for_ (actions spec) perform w = (inr tt, w1) ∧
        w' = World (tree w1) (stdout w1 ++ [summary_line]).
Proof.
  rewrite create_structure_over_result.
  destruct (for_ (actions spec) perform w) as [[e|[]] w1];
    [discriminate|]. intros [= <-]. eauto.
Qed.

Lemma create_structure_result w :
  create_structure w =
  match for_ (actions directories) perform w with
  | (inl e, w1) => (inl e, w1)
  | (inr _, w1) => (inr tt, World (tree w1) (stdout w1 ++ [summary_line]))
  end.
Proof. apply create_structure_over_result. Qed.

Lemma create_structure_ok w w' :
  create_structure w = (inr tt, w') →
  ∃ w1, for_ (actions directories) perform w = (inr tt, w1) ∧
        w' = World (tree w1) (stdout w1 ++ [summary_line]).
Proof. apply create_structure_over_ok. Qed.


Lemma makedirs_leaf p s s1 :
  makedirs p s = inr s1 → s1 !! p = Some (Dir true).
Proof.
  assert (∀ q t t1, mkdir q t = inr t1 → t1 !! q = Some (Dir true)) as Hmk.
  { intros q t t1 Hm. apply mkdir_inv in Hm as (x & head & _ & _ & _ & ->).
    apply lookup_insert_eq. }
  destruct p as [|x head]; simpl; [apply Hmk|].
  destruct (s !! head); [apply Hmk|].
  destruct (makedirs head s) as [[]|s']; try discriminate; apply Hmk.
Qed.

Lemma create_kind a s s1 :
  s !! target a = None → create a s = inr s1 →
  s1 !! target a = Some (kind a).
Proof.
  intros Hp Hc. destruct a as [d|d f]; simpl in *.
  - by eapply makedirs_leaf.
  - apply creat_inv in Hc as (x & head & _ & _ & ->); [|done].
    apply lookup_insert_eq.
Qed.

Lemma subseteq_lookup_None (s s1 : gmap (list string) node) p :
  s ⊆ s1 → s1 !! p = None → s !! p = None.
Proof.
  intros Hsub Hp. destruct (s !! p) as [n|] eqn:Hn; [|done].
  by rewrite (lookup_weaken _ _ _ _ Hn Hsub) in Hp.
Qed.

Lemma actions_app spec1 spec2 :
  actions (spec1 ++ spec2) = (actions spec1 ++ actions spec2)%list.
Proof. unfold actions. apply flat_map_app. Qed.




(** * The calls under given credentials *)















(** * The claims *)

(** C7: the table holds exactly the sixteen directories of the layout, with
    the listed number of files each; the three [public] directories have no
    files, the two [app/api] directories have the one file [route.ts], and
    [store] has the one file [index.ts]. *)
Theorem directories_table :
  map (λ e, (e.1, length e.2)) directories =
    [ ("public/fonts", 0); ("public/icons", 0); ("public/presets", 0);
      ("app/api/export", 1); ("app/api/presets", 1);
      ("components/ui", 9); ("components/layout", 3);
      ("components/audio", 8); ("components/modals", 3);
      ("components/controls", 10);
      ("lib/audio", 5); ("lib/hooks", 4); ("lib/utils", 3);
      ("types", 3); ("store", 1); ("store/slices", 3) ] ∧
  NoDup directories.*1 ∧
  lookup_entry "app/api/export" directories = Some ["route.ts"] ∧
  lookup_entry "app/api/presets" directories = Some ["route.ts"] ∧
  lookup_entry "store" directories = Some ["index" +:+ ".ts"].
Proof.
  split; [reflexivity|]. split; [|done].
  apply (bool_decide_unpack _). vm_compute. exact I.
Qed.


Lemma build_outcome w w' :
  well_formed (tree w) → create_structure w = (inr tt, w') →
  well_formed (tree w') ∧
  ∀ p n, tree w' !! p = Some n ↔ outcome (tree w) (actions directories) p n.
Proof.
  intros Hwf Hrun. apply create_structure_ok in Hrun as (w1 & Hrun & ->).
  destruct (walk_outcome _ _ _ Hwf directories_coherent Hrun) as (? & ? & _).
  done.
Qed.

Lemma action_lands w w' a :
  well_formed (tree w) → create_structure w = (inr tt, w') →
  a ∈ actions directories →
  is_Some (tree w' !! target a) ∧
  (tree w !! target a = None → tree w' !! target a = Some (kind a)).
Proof.
  intros Hwf Hrun Ha. destruct (build_outcome w w' Hwf Hrun) as [_ Hchar].
  assert (produces a (target a)) as Hpr.
  { apply produces_target. by apply directories_coherent. }
  assert (tree w !! target a = None → tree w' !! target a = Some (kind a)) as Hnew.
  { intros Hnone. apply Hchar. right. split; [done|]. by exists a. }
  split; [|done]. destruct (tree w !! target a) as [n|] eqn:Hn.
  - exists n. apply Hchar. by left.
  - exists (kind a). by apply Hnew.
Qed.

Lemma file_in_directory directory files file :
  (directory, files) ∈ directories → file ∈ files →
  ∃ x, file_path directory file = x :: dir_path directory.
Proof.
  intros Hin Hf. destruct directories_coherent as (Hne & Hpar & _).
  assert (Touch directory file ∈ actions directories) as Ha.
  { apply elem_of_actions. exists directory, files. split; [done|]. right. eauto. }
  specialize (Hne _ Ha). specialize (Hpar _ _ Ha). simpl in Hne.
  destruct (file_path directory file) as [|x q]; [done|]. simpl in Hpar.
  subst q. eauto.
Qed.

(** C2 as stated fails: the existence check takes whatever sits at a path
    for the directory or the file.  A regular file at [public/fonts], an
    entry without files, and a directory at [store/index.ts] both let the
    run complete, and are still what they were. *)
Lemma existing_object_taken_as_is :
  (create_structure fonts_file_base).1 = inr tt ∧
  tree (create_structure fonts_file_base).2 !! dir_path "public/fonts"
    = Some (File [Byte.x2f]) ∧
  (create_structure index_dir_base).1 = inr tt ∧
  tree (create_structure index_dir_base).2 !! file_path "store" "index.ts"
    = Some (Dir true).
Proof. by vm_compute. Qed.

(** C2, amended: after a run that completes, every directory of the table exists
    and every file listed for it exists, in the sense of [os.path.exists];
    a directory the run had to create is a directory, a directory with
    listed files is a directory, and every file the run had to create is a
    regular file of zero bytes. *)
Theorem build_complete w w' directory files :
  well_formed (tree w) →
  create_structure w = (inr tt, w') →
  (directory, files) ∈ directories →
  (path_exists (path_join "." directory) w').1 = inr true ∧
  (tree w !! dir_path directory = None →
     tree w' !! dir_path directory = Some (Dir true)) ∧
  (files ≠ [] → ∃ wr, tree w' !! dir_path directory = Some (Dir wr)) ∧
  ∀ file, file ∈ files →
    (path_exists (path_join (path_join "." directory) file) w').1 = inr true ∧
    (tree w !! file_path directory file = None →
       tree w' !! file_path directory file = Some (File [])).
Proof.
  intros Hwf Hrun Hin.
  assert (∀ file, file ∈ files →
            is_Some (tree w' !! file_path directory file) ∧
            (tree w !! file_path directory file = None →
             tree w' !! file_path directory file = Some (File []))) as Hfiles.
  { intros file Hf.
    apply (action_lands w w' (Touch directory file)); [done..|].
    apply elem_of_actions. exists directory, files. split; [done|]. right. eauto. }
  destruct (action_lands w w' (MakeDir directory)) as [Hd Hdnew]; [done..| |].
  { apply elem_of_actions. exists directory, files. split; [done|]. by left. }
  simpl in Hd, Hdnew. split; [|split; [done|split]].
  - unfold path_exists. simpl. f_equal. by apply bool_decide_eq_true_2.
  - intros Hne. destruct files as [|file rest]; [done|].
    destruct (Hfiles file) as [[n Hn] _]; [by left|].
    destruct (file_in_directory directory (file :: rest) file) as [x Hx];
      [done|by left|].
    rewrite Hx in Hn. destruct (build_outcome w w' Hwf Hrun) as [Hwf' _].
    by apply (Hwf' x _ n).
  - intros file Hf. destruct (Hfiles file Hf) as [Hsome Hnew].
    split; [|done].
    unfold path_exists. simpl. f_equal. by apply bool_decide_eq_true_2.
Qed.

Lemma build_complete_witness :
  (path_exists (path_join "." "store") (create_structure empty_base).2).1
    = inr true ∧
  (tree empty_base !! dir_path "store" = None →
     tree (create_structure empty_base).2 !! dir_path "store" = Some (Dir true)) ∧
  (["index.ts"] ≠ [] →
     ∃ wr, tree (create_structure empty_base).2 !! dir_path "store"
           = Some (Dir wr)) ∧
  ∀ file, file ∈ ["index.ts"] →
    (path_exists (path_join (path_join "." "store") file)
       (create_structure empty_base).2).1 = inr true ∧
    (tree empty_base !! file_path "store" file = None →
       tree (create_structure empty_base).2 !! file_path "store" file
       = Some (File [])).
Proof.
  apply (build_complete empty_base (create_structure empty_base).2
           "store" ["index.ts"]).
  - apply well_formedb_correct. vm_compute. reflexivity.
  - vm_compute. reflexivity.
  - unfold directories. repeat constructor.
Defined.

(** A regular file already sitting at [public/fonts], an entry without
    files, is not noticed: the run completes and the file is still there. *)
Example fonts_file_left_alone :
  (create_structure fonts_file_base).1 = inr tt ∧
  tree (create_structure fonts_file_base).2 !! dir_path "public/fonts"
    = Some (File [Byte.x2f]).
Proof. by vm_compute. Qed.

(** C3 as stated fails: when the walk stops before it reaches the
    directory, the missing siblings of an existing file are not created.
    Here a regular file at [public] stops it in its first turn. *)
Lemma siblings_missed_when_walk_stops_early :
  tree blocked_button_base !! file_path "components/ui" "Button.tsx"
    = Some (File (replicate 500 Byte.x2f)) ∧
  (create_structure blocked_button_base).1 = inl NotADirectoryError ∧
  tree (create_structure blocked_button_base).2
    !! file_path "components/ui" "Button.tsx"
    = Some (File (replicate 500 Byte.x2f)) ∧
  tree blocked_button_base !! file_path "components/ui" "Slider.tsx" = None ∧
  tree (create_structure blocked_button_base).2
    !! file_path "components/ui" "Slider.tsx" = None.
Proof. by vm_compute. Qed.

(** C3, amended: whatever is at the path of a listed file before the run is
    still there, unchanged, after it, and so is everything else that
    existed, whether the run completes or aborts; and whenever the walk gets
    through the entry of the directory (it does when the run completes, and
    when the run aborts in a later entry), every listed file of that
    directory that was missing is there as an empty file. *)
Theorem build_preserves_existing w r w' directory files file n :
  (directory, files) ∈ directories → file ∈ files →
  tree w !! file_path directory file = Some n →
  create_structure w = (r, w') →
  tree w' !! file_path directory file = Some n ∧
  (∀ p m, tree w !! p = Some m → tree w' !! p = Some m) ∧
  (∀ pre post w1,
     well_formed (tree w) →
     directories = (pre ++ post)%list →
     (directory, files) ∈ pre →
     for_ pre (process_entry ".") w = (inr tt, w1) →
     ∀ sibling, sibling ∈ files →
       tree w !! file_path directory sibling = None →
       tree w' !! file_path directory sibling = Some (File [])).
Proof.
  intros Hin Hf Hn Hrun.
  assert (tree w ⊆ tree w') as Hsub.
  { rewrite create_structure_result in Hrun.
    destruct (for_ (actions directories) perform w) as [[e|[]] w1] eqn:Hwalk;
      injection Hrun as _ <-; simpl; eapply walk_grows, Hwalk. }
  split; [by eapply lookup_weaken|]. split.
  { intros p m Hp. by eapply lookup_weaken. }
  intros pre post w1 Hwf Hsplit Hpre Hwalk sibling Hs Hnone.
  rewrite walk_flat in Hwalk.
  assert (coherent (actions pre)) as Hco.
  { eapply coherent_incl; [|apply directories_coherent].
    intros a Ha. rewrite Hsplit, actions_app. apply elem_of_app. by left. }
  destruct (walk_outcome _ _ _ Hwf Hco Hwalk) as (_ & Hchar & _).
  assert (tree w1 !! file_path directory sibling = Some (File [])) as Hw1.
  { apply Hchar. right. split; [done|]. exists (Touch directory sibling).
    split; [|done]. apply elem_of_actions. exists directory, files.
    split; [done|]. right. eauto. }
  eapply lookup_weaken; [exact Hw1|].
  rewrite create_structure_result, Hsplit, actions_app, for_app in Hrun.
  unfold bind in Hrun. rewrite Hwalk in Hrun.
  destruct (for_ (actions post) perform w1) as [[e|[]] w2] eqn:Hpost;
    injection Hrun as _ <-; simpl; eapply walk_grows, Hpost.
Qed.

Lemma build_preserves_existing_witness :
  (create_structure button_store_base).1 = inl NotADirectoryError ∧
  tree (create_structure button_store_base).2
    !! file_path "components/ui" "Button.tsx"
    = Some (File (replicate 500 Byte.x2f)) ∧
  ∀ sibling,
    sibling ∈ ["Button.tsx"; "Slider.tsx"; "Knob.tsx"; "Switch.tsx";
               "Card.tsx"; "Modal.tsx"; "Tabs.tsx"; "Dropdown.tsx";
               "Tooltip.tsx"] →
    tree button_store_base !! file_path "components/ui" sibling = None →
    tree (create_structure button_store_base).2
      !! file_path "components/ui" sibling = Some (File []).
Proof.
  destruct (build_preserves_existing button_store_base
              (create_structure button_store_base).1
              (create_structure button_store_base).2
              "components/ui"
              ["Button.tsx"; "Slider.tsx"; "Knob.tsx"; "Switch.tsx";
               "Card.tsx"; "Modal.tsx"; "Tabs.tsx"; "Dropdown.tsx";
               "Tooltip.tsx"]
              "Button.tsx" (File (replicate 500 Byte.x2f)))
    as (Hkept & _ & Hsiblings).
  - unfold directories. repeat constructor.
  - repeat constructor.
  - vm_compute. reflexivity.
  - by destruct (create_structure button_store_base).
  - split; [vm_compute; reflexivity|]. split; [exact Hkept|].
    apply (Hsiblings (take 6 directories) (drop 6 directories)
             (for_ (take 6 directories) (process_entry ".")
                   button_store_base).2).
    + apply well_formedb_correct. vm_compute. reflexivity.
    + reflexivity.
    + unfold directories. simpl. repeat constructor.
    + vm_compute. reflexivity.
Defined.



(** In a base the process may not write to, the first [os.makedirs] raises
    and nothing is created or printed. *)
Example read_only_base_fails :
  create_structure read_only_base = (inl PermissionError, read_only_base) ∧
  exit_code (main [] [] read_only_base) = 1%Z.
Proof. by vm_compute. Qed.

(** C5 as stated fails: a base directory given on the command line is not
    read; the tree is still built in the working directory. *)
Lemma base_dir_argument_ignored :
  let p := main ["createProject.py"; "out"] [] out_base in
  exit_code p = 0%Z ∧
  tree (final p) !! resolve (path_join "out" "public/fonts") = None ∧
  tree (final p) !! resolve (path_join "." "public/fonts") = Some (Dir true).
Proof. vm_compute. done. Qed.

(** C5, amended: the entry point takes no argument at all: whatever the
    command line and the environment hold, the run is that of
    [create_structure] with the base directory fixed to ".", and every path
    of the table resolves to its own components below the working
    directory. *)
Theorem entry_point_fixed_base argv environ w :
  main argv environ w = main [] [] w ∧
  create_structure w = create_structure_over "." directories w ∧
  Forall (λ e, dir_path e.1 = resolve e.1 ∧
               Forall (λ f, file_path e.1 f = f :: resolve e.1) e.2)
         directories.
Proof.
  split; [done|]. split; [done|].
  unfold directories. repeat constructor.
Qed.





(** The output is not order independent: written backwards, the table
    produces other lines. *)
Example backwards_log_differs :
  (create_structure_over "." (backwards directories) empty_base).1 = inr tt ∧
  stdout (create_structure_over "." (backwards directories) empty_base).2
    ≠ stdout (create_structure empty_base).2.
Proof. split; [by vm_compute|]. vm_compute. discriminate. Qed.


(** The output of a run that completes, read off the tree it started
    from. *)
Lemma completed_run_output w w' :
  well_formed (tree w) →
  create_structure w = (inr tt, w') →
  stdout w' = (stdout w ++ expected_log (tree w) (actions directories)
                        ++ [summary_line])%list.
Proof.
  intros Hwf Hrun. apply create_structure_ok in Hrun as (w1 & Hrun & ->).
  simpl. rewrite (walk_log _ _ _ Hwf directories_fresh Hrun).
  by rewrite <- app_assoc.
Qed.



(** On the aborted run from [store_file_base] that is sixty-four lines and no
    closing line. *)
Example aborted_run_output :
  (create_structure store_file_base).1 = inl NotADirectoryError ∧
  length (created_log (tree store_file_base)
            (tree (create_structure store_file_base).2)
            (actions directories)) = 64 ∧
  length (stdout (create_structure store_file_base).2) = 64.
Proof. by vm_compute. Qed.

(** C9: the check before [os.makedirs] asks only whether the path exists.
    Whatever sits at the path of a table directory, the directory step does
    nothing, prints nothing and raises nothing; when it is a regular file and
    the entry lists files, the [open] of the first listed file is what
    raises, with [NotADirectoryError], and nothing has changed. *)
Theorem exists_check_ignores_kind w directory files n :
  (directory, files) ∈ directories →
  tree w !! dir_path directory = Some n →
  perform (MakeDir directory) w = (inr tt, w) ∧
  process_entry "." (directory, []) w = (inr tt, w) ∧
  (well_formed (tree w) →
   ∀ c file rest, n = File c → files = file :: rest →
     open_w (path_join (path_join "." directory) file) w
       = (inl NotADirectoryError, w) ∧
     process_entry "." (directory, files) w = (inl NotADirectoryError, w)).
Proof.
  intros Hin Hn.
  assert (perform (MakeDir directory) w = (inr tt, w)) as Hdir.
  { apply perform_present. simpl. eauto. }
  split; [done|]. split.
  { rewrite process_entry_flat. unfold entry_actions.
    cbn [for_ map fst snd]. unfold bind. by rewrite Hdir. }
  intros Hwf c file rest -> ->.
  destruct (file_in_directory directory (file :: rest) file) as [x Hx];
    [done|by left|].
  assert (tree w !! file_path directory file = None) as Hnone.
  { destruct (tree w !! file_path directory file) as [m|] eqn:Hm; [|done].
    rewrite Hx in Hm. destruct (Hwf _ _ _ Hm) as [wr Hwr]. congruence. }
  assert (creat (file_path directory file) (tree w) = inl NotADirectoryError)
    as Hcreat.
  { unfold creat. rewrite Hnone, Hx, Hn. done. }
  split.
  { unfold open_w, syscall. fold (file_path directory file). by rewrite Hcreat. }
  rewrite process_entry_flat. unfold entry_actions.
  cbn [for_ map fst snd]. unfold bind at 1. rewrite Hdir. unfold bind at 1.
  destruct (perform_cases (Touch directory file) w)
    as [[[m Hm] _]|[(_ & s' & Hc & _)|(_ & e & Hc & Heq)]]; simpl in *;
    [congruence|congruence|].
  rewrite Heq. congruence.
Qed.

Lemma exists_check_ignores_kind_witness :
  perform (MakeDir "store") store_file_base = (inr tt, store_file_base) ∧
  process_entry "." ("store", []) store_file_base = (inr tt, store_file_base) ∧
  (well_formed (tree store_file_base) →
   ∀ c file rest, File [Byte.x2f] = File c → ["index.ts"] = file :: rest →
     open_w (path_join (path_join "." "store") file) store_file_base
       = (inl NotADirectoryError, store_file_base) ∧
     process_entry "." ("store", ["index.ts"]) store_file_base
       = (inl NotADirectoryError, store_file_base)).
Proof.
  apply (exists_check_ignores_kind store_file_base "store" ["index.ts"]
           (File [Byte.x2f])).
  - unfold directories. repeat constructor.
  - vm_compute. reflexivity.
Defined.

(** In the plain model, with its fixed credentials, the run is a function
    of the tree it starts from. *)
Lemma build_deterministic argv1 environ1 argv2 environ2 s out1 out2 :
  let p1 := main argv1 environ1 (World s out1) in
  let p2 := main argv2 environ2 (World s out2) in
  exit_code p1 = exit_code p2 ∧
  stderr p1 = stderr p2 ∧
  tree (final p1) = tree (final p2) ∧
  emitted (World s out1) (final p1) = emitted (World s out2) (final p2).
Proof.
  cbv zeta. unfold main. rewrite !create_structure_result.
  destruct (for_ (actions directories) perform (World s out1))
    as [r1 w1] eqn:Hrun1.
  destruct (walk_frame _ _ _ out2 _ _ Hrun1) as (lines & Hout & Hrun2).
  rewrite Hrun2. destruct w1 as [s1 o1]. simpl in Hout. subst o1.
  destruct r1 as [e|[]]; simpl; unfold emitted; simpl;
    rewrite <- ?app_assoc, !drop_app_length; done.
Qed.



(** * More about the walk, for any table *)

(** Whatever a walk leaves behind, complete or not, was there before or is
    something one of its actions produces. *)
Lemma walk_scope acts : ∀ w r w',
  well_formed (tree w) → for_ acts perform w = (r, w') →
  well_formed (tree w') ∧
  ∀ p n, tree w' !! p = Some n → outcome (tree w) acts p n.
Proof.
  induction acts as [|a rest IH]; intros w r w' Hwf Hrun; simpl in Hrun.
  { injection Hrun as _ <-. split; [done|]. intros p n Hp. by left. }
  unfold bind in Hrun. destruct (perform a w) as [[e|[]] w1] eqn:Ha.
  - injection Hrun as _ <-.
    destruct (perform_grows _ _ _ _ Ha) as (_ & _ & Hsame).
    rewrite (Hsame e eq_refl). split; [done|]. intros p n Hp. by left.
  - pose proof (perform_extends a w w1 Hwf Ha) as Hext.
    pose proof Hext as (Hwf1 & Hchar & _).
    destruct (IH w1 r w' Hwf1 Hrun) as [Hwf' Hup]. split; [done|].
    intros p n Hp. destruct (Hup p n Hp) as [H1|(H1 & b & Hb & Hpr & Hk)].
    + apply Hchar in H1 as [H1|(H1 & Hpr & Hk)]; [by left|].
      right. split; [done|]. exists a. split; [by left|done].
    + right. split; [by eapply extends_by_none|].
      exists b. split; [by right|done].
Qed.

(** Every line a walk prints belongs to an action whose path was absent
    before the walk and is there, with the kind of the action, after it. *)
Lemma walk_log_sound acts : ∀ w r w',
  for_ acts perform w = (r, w') →
  ∃ lines, stdout w' = (stdout w ++ lines)%list ∧
           lines `sublist_of` map log_line acts ∧
           ∀ line, line ∈ lines →
             ∃ a, a ∈ acts ∧ line = log_line a ∧
                  tree w !! target a = None ∧
                  tree w' !! target a = Some (kind a).
Proof.
  induction acts as [|a rest IH]; intros w r w' Hrun; simpl in Hrun.
  { injection Hrun as _ <-. exists []. rewrite app_nil_r.
    split; [done|]. split; [done|]. intros line Hl. by apply elem_of_nil in Hl. }
  unfold bind in Hrun.
  destruct (perform_cases a w)
    as [[Hp Heq]|[(Hp & s' & Hc & Heq)|(Hp & e & Hc & Heq)]];
    rewrite Heq in Hrun.
  - destruct (IH _ _ _ Hrun) as (lines & Hout & Hsub & Hsound).
    exists lines. split; [done|]. split; [by apply sublist_cons|].
    intros line Hl. destruct (Hsound line Hl) as (b & Hb & Hrest).
    exists b. split; [by right|done].
  - destruct (IH _ _ _ Hrun) as (lines & Hout & Hsub & Hsound).
    simpl in Hout. destruct (create_grows _ _ _ Hp Hc) as [Hgrow _].
    pose proof (walk_grows _ _ _ _ Hrun) as Hgrow'. simpl in Hgrow'.
    exists (log_line a :: lines). split; [by rewrite Hout, <- app_assoc|].
    split; [by apply sublist_skip|].
    intros line Hl. apply elem_of_cons in Hl as [->|Hl].
    + exists a. split; [by left|]. split; [done|]. split; [done|].
      eapply lookup_weaken; [|exact Hgrow']. by apply (create_kind a (tree w)).
    + destruct (Hsound line Hl) as (b & Hb & Hline & Hnone & Hsome).
      exists b. split; [by right|]. split; [done|]. split; [|done].
      simpl in Hnone. by apply (subseteq_lookup_None _ s').
  - injection Hrun as _ <-. exists []. rewrite app_nil_r.
    split; [done|]. split; [apply sublist_nil_l|].
    intros line Hl. by apply elem_of_nil in Hl.
Qed.



(** * Further properties of the walk *)

Lemma directories_plain : plain_table directories = true.
Proof. by vm_compute. Qed.

(** X1: in a tree of directories and regular files, a run over any plain
    table, complete or aborted, keeps the tree well formed, keeps everything
    that was there, and creates nothing outside the table: a new path is a
    directory of the table or an ancestor of one, made as a directory, or a
    listed file, made empty. *)
Theorem build_scope spec w r w' :
  plain_table spec = true →
  well_formed (tree w) →
  create_structure_over "." spec w = (r, w') →
  well_formed (tree w') ∧
  tree w ⊆ tree w' ∧
  ∀ p n, tree w !! p = None → tree w' !! p = Some n →
    ∃ d fl, (d, fl) ∈ spec ∧
      ((p ≠ [] ∧ p `suffix_of` dir_path d ∧ n = Dir true) ∨
       (∃ f, f ∈ fl ∧ p = file_path d f ∧ n = File [])).
Proof.
  intros _ Hwf Hrun. rewrite create_structure_over_result in Hrun.
  destruct (for_ (actions spec) perform w) as [r1 w1] eqn:Hwalk.
  assert (tree w' = tree w1) as Htree.
  { by destruct r1 as [e|[]]; injection Hrun as _ <-. }
  rewrite Htree. destruct (walk_scope _ _ _ _ Hwf Hwalk) as [Hwf' Hup].
  split; [done|]. split; [by eapply walk_grows|].
  intros p n Hnone Hp.
  destruct (Hup p n Hp) as [H1|(_ & a & Ha & Hpr & ->)]; [congruence|].
  apply elem_of_actions in Ha as (d & fl & Hin & Ha). exists d, fl.
  split; [done|]. destruct Ha as [->|(f & Hf & ->)]; simpl in Hpr.
  - left. by destruct Hpr.
  - right. eauto.
Qed.

Lemma build_scope_witness :
  well_formed (tree (create_structure_over "." directories store_file_base).2) ∧
  tree store_file_base
    ⊆ tree (create_structure_over "." directories store_file_base).2 ∧
  ∀ p n, tree store_file_base !! p = None →
    tree (create_structure_over "." directories store_file_base).2 !! p
      = Some n →
    ∃ d fl, (d, fl) ∈ directories ∧
      ((p ≠ [] ∧ p `suffix_of` dir_path d ∧ n = Dir true) ∨
       (∃ f, f ∈ fl ∧ p = file_path d f ∧ n = File [])).
Proof.
  apply (build_scope directories store_file_base
           (create_structure_over "." directories store_file_base).1).
  - apply directories_plain.
  - apply well_formedb_correct. vm_compute. reflexivity.
  - by destruct (create_structure_over "." directories store_file_base).
Defined.

(** X2: in a tree of directories and regular files, after a completed run
    over a plain, coherent table the tree is known path by path: what was
    there is there unchanged, every missing directory of the table and every
    missing ancestor of one is a directory, every missing listed file is an
    empty file, and there is nothing else. *)
Theorem build_final_tree spec w w' :
  plain_table spec = true →
  well_formed (tree w) →
  coherent (actions spec) →
  create_structure_over "." spec w = (inr tt, w') →
  ∀ p n, tree w' !! p = Some n ↔
    tree w !! p = Some n ∨
    (tree w !! p = None ∧
     ∃ d fl, (d, fl) ∈ spec ∧
       ((p ≠ [] ∧ p `suffix_of` dir_path d ∧ n = Dir true) ∨
        (∃ f, f ∈ fl ∧ p = file_path d f ∧ n = File []))).
Proof.
  intros _ Hwf Hco Hrun.
  apply create_structure_over_ok in Hrun as (w1 & Hrun & ->). simpl.
  destruct (walk_outcome _ _ _ Hwf Hco Hrun) as (_ & Hchar & _).
  intros p n. rewrite Hchar. unfold outcome. split.
  - intros [Hp|(Hp & a & Ha & Hpr & ->)]; [by left|]. right. split; [done|].
    apply elem_of_actions in Ha as (d & fl & Hin & Ha). exists d, fl.
    split; [done|]. destruct Ha as [->|(f & Hf & ->)]; simpl in Hpr.
    + left. by destruct Hpr.
    + right. eauto.
  - intros [Hp|(Hp & d & fl & Hin & Hcase)]; [by left|]. right. split; [done|].
    destruct Hcase as [(Hne & Hsuf & ->)|(f & Hf & -> & ->)].
    + exists (MakeDir d). split; [|done].
      apply elem_of_actions. exists d, fl. split; [done|]. by left.
    + exists (Touch d f). split; [|done].
      apply elem_of_actions. exists d, fl. split; [done|]. right. eauto.
Qed.

Lemma build_final_tree_witness :
  tree (create_structure_over "." directories button_base).2
    !! file_path "components/ui" "Slider.tsx" = Some (File []) ↔
  tree button_base !! file_path "components/ui" "Slider.tsx" = Some (File []) ∨
  (tree button_base !! file_path "components/ui" "Slider.tsx" = None ∧
   ∃ d fl, (d, fl) ∈ directories ∧
     ((file_path "components/ui" "Slider.tsx" ≠ [] ∧
       file_path "components/ui" "Slider.tsx" `suffix_of` dir_path d ∧
       File [] = Dir true) ∨
      (∃ f, f ∈ fl ∧
            file_path "components/ui" "Slider.tsx" = file_path d f ∧
            File [] = File []))).
Proof.
  apply (build_final_tree directories button_base
           (create_structure_over "." directories button_base).2).
  - apply directories_plain.
  - apply well_formedb_correct. vm_compute. reflexivity.
  - apply directories_coherent.
  - vm_compute. reflexivity.
Defined.

(** X3: the output of a run over any table, complete or aborted, never
    lies: what was printed before is kept, every new progress line belongs
    to an entry of the table whose path was absent before the run and is
    there as a writable directory or an empty file after it, the lines come
    in table order, and the closing line is printed last exactly when the
    run completes. *)
Theorem build_log_sound spec w :
  let r := (create_structure_over "." spec w).1 in
  let w' := (create_structure_over "." spec w).2 in
  ∃ lines,
    stdout w' = (stdout w ++ lines
                   ++ (if r is inr _ then [summary_line] else []))%list ∧
    lines `sublist_of` map log_line (actions spec) ∧
    ∀ line, line ∈ lines →
      ∃ a, a ∈ actions spec ∧ line = log_line a ∧
           tree w !! target a = None ∧
           tree w' !! target a = Some (kind a).
Proof.
  cbv zeta. rewrite create_structure_over_result.
  destruct (for_ (actions spec) perform w) as [r1 w1] eqn:Hwalk.
  destruct (walk_log_sound _ _ _ _ Hwalk) as (lines & Hout & Hsub & Hsound).
  exists lines. destruct r1 as [e|[]]; simpl.
  - rewrite app_nil_r. done.
  - rewrite Hout, <- app_assoc. done.
Qed.







(** Without coherence the order matters: when a listed file and a directory
    of the table share a path, whichever comes first decides what it is. *)
Example order_matters_without_coherence :
  let spec := [("a", ["b"]); ("a/b", [])] in
  reordering spec (rev spec) ∧
  (create_structure_over "." spec empty_base).1 = inr tt ∧
  (create_structure_over "." (rev spec) empty_base).1 = inr tt ∧
  tree (create_structure_over "." spec empty_base).2 !! ["b"; "a"]
    = Some (File []) ∧
  tree (create_structure_over "." (rev spec) empty_base).2 !! ["b"; "a"]
    = Some (Dir true).
Proof.
  split.
  { exists (rev [("a", ["b"]); ("a/b", [])]).
    split; [apply Permutation_rev|]. repeat constructor. }
  by vm_compute.
Qed.
